(** * EventManager: a shallow embedding of [event_manager.h]

    The registry maps an event name to a vector of (identifier, function)
    pairs.  [on] registers a function, [off] unregisters by identifier and
    [emitEvent] runs every function stored under a name.

    Modelling choices, all read off the header:
    - [functionsMap] is a [std::map<std::string, std::shared_ptr<...>>]; the
      map is private, the class is not copyable and no member hands out a
      handle, so a container is never aliased: the map is a [gmap] from
      names to the vector's contents.
    - A signature [Args...] is a template parameter fixed at each call site.
      The model is parametric in a type [Args] of argument packs; callers
      that cast a container to another signature have undefined behaviour
      and are outside the model.
    - A [std::function<void(Args...)>] acts on the rest of the program.  It
      is an element of an abstract type [Callback], run by
      [call : Callback -> Args -> W -> outcome] on a world [W]; it either
      returns or throws.  A callback that re-enters the registry would lock
      the non-recursive [functionsMapMutex] twice, so callbacks do not touch
      the registry.
    - [size_t] identifiers are only ever copies of [functions.size()] or of
      a caller's argument; no arithmetic is done on them, so they are [nat].
    - [std::lock_guard] serialises the three operations; the model is the
      sequential behaviour of one operation at a time.
    - Running out of memory ([std::bad_alloc] from a vector or map
      insertion) is not modelled. *)

From stdpp Require Import gmap strings list fin_maps.

(** ** Callback results *)

(** What a call of a [std::function] can do: return, or throw [e]; in both
    cases it may have changed the world first. *)
Inductive outcome (W Exn : Type) : Type :=
| Returned (w : W)
| Raised (e : Exn) (w : W).
Arguments Returned {W Exn} w.
Arguments Raised {W Exn} e w.

(** One execution of [funcPair.second(args...)]: which pair was called and
    with which arguments. *)
Record invocation (Callback Args : Type) : Type := Invoke {
  inv_id : nat;
  inv_fn : Callback;
  inv_args : Args
}.
Arguments Invoke {Callback Args} inv_id inv_fn inv_args.
Arguments inv_id {Callback Args} i.
Arguments inv_fn {Callback Args} i.
Arguments inv_args {Callback Args} i.

(** ** The registry *)

(** [FunctionIdPair<Args...>] and [FunctionVector<Args...>]. *)
Abbreviation FunctionIdPair Callback := (nat * Callback)%type (only parsing).
Abbreviation FunctionVector Callback := (list (nat * Callback)) (only parsing).

(** The data members of [class EventManager]. *)
Record EventManager (Callback : Type) : Type := mkEventManager {
  functionsMap : gmap string (FunctionVector Callback)
}.
Arguments mkEventManager {Callback} functionsMap.
Arguments functionsMap {Callback} e.

(** [EventManager() = default]: an empty map. *)
Definition EventManager_default {Callback : Type} : EventManager Callback :=
  mkEventManager ∅.

(** [v.erase(std::remove_if(v.begin(), v.end(), pred), v.end())]: the
    elements that do not satisfy [pred], in their original order. *)
Fixpoint remove_if {A : Type} (pred : A → bool) (v : list A) : list A :=
  match v with
  | [] => []
  | x :: v' => if pred x then remove_if pred v' else x :: remove_if pred v'
  end.

(** [EventManager::on]: returns the identifier and the updated registry. *)
Definition on {Callback : Type} (eventName : string) (newFunc : Callback)
    (em : EventManager Callback) : nat * EventManager Callback :=
  match functionsMap em !! eventName with
  | Some functions =>
      let id := length functions in
      (id, mkEventManager
             (<[eventName := functions ++ [(id, newFunc)]]> (functionsMap em)))
  | None =>
      (0, mkEventManager (<[eventName := [(0, newFunc)]]> (functionsMap em)))
  end.

(** [EventManager::off]. *)
Definition off {Callback : Type} (eventName : string) (id : nat)
    (em : EventManager Callback) : EventManager Callback :=
  match functionsMap em !! eventName with
  | Some functions =>
      mkEventManager
        (<[eventName := remove_if (λ pair, Nat.eqb pair.1 id) functions]>
           (functionsMap em))
  | None => em
  end.

(** What an emission leaves behind: the registry, the calls made in the
    order they were made, and how the emission ended. *)
Record emission (Callback Args W Exn : Type) : Type := mkEmission {
  em_after : EventManager Callback;
  em_trace : list (invocation Callback Args);
  em_outcome : outcome W Exn
}.
Arguments mkEmission {Callback Args W Exn} em_after em_trace em_outcome.
Arguments em_after {Callback Args W Exn} e.
Arguments em_trace {Callback Args W Exn} e.
Arguments em_outcome {Callback Args W Exn} e.

Section Emit.
Context {Callback Args W Exn : Type}.
Variable call : Callback → Args → W → outcome W Exn.

(** The loop [for (auto &funcPair : functions) funcPair.second(args...)].
    Nothing in it catches: a throw leaves the loop at once. *)
Fixpoint invoke_all (functions : FunctionVector Callback) (args : Args)
    (w : W) : list (invocation Callback Args) * outcome W Exn :=
  match functions with
  | [] => ([], Returned w)
  | funcPair :: rest =>
      match call funcPair.2 args w with
      | Returned w' =>
          let r := invoke_all rest args w' in
          (Invoke funcPair.1 funcPair.2 args :: r.1, r.2)
      | Raised e w' => ([Invoke funcPair.1 funcPair.2 args], Raised e w')
      end
  end.

(** [EventManager::emitEvent]. *)
Definition emitEvent (eventName : string) (args : Args)
    (em : EventManager Callback) (w : W) : emission Callback Args W Exn :=
  match functionsMap em !! eventName with
  | Some functions =>
      let r := invoke_all functions args w in mkEmission em r.1 r.2
  | None => mkEmission em [] (Returned w)
  end.

(** Every function of [functions], run in order from world [w], returns,
    and the last one leaves world [w']. *)
Inductive all_return (args : Args) :
    FunctionVector Callback → W → W → Prop :=
| all_return_nil w : all_return args [] w w
| all_return_cons funcPair rest w w1 w' :
    call funcPair.2 args w = Returned w1 →
    all_return args rest w1 w' →
    all_return args (funcPair :: rest) w w'.

End Emit.

(** ** Derived notions used in the statements *)

(** The calls a full pass over [functions] makes with [args]. *)
Definition calls {Callback Args : Type} (args : Args)
    (functions : FunctionVector Callback) : list (invocation Callback Args) :=
  (λ pair, Invoke pair.1 pair.2 args) <$> functions.

(** The identifiers stored in a vector. *)
Definition ids {Callback : Type} (functions : FunctionVector Callback)
    : list nat :=
  fst <$> functions.

(** The vector stored under a name; empty when the name has no container. *)
Definition functions_of {Callback : Type} (eventName : string)
    (em : EventManager Callback) : FunctionVector Callback :=
  default [] (functionsMap em !! eventName).

(** [on] called once per element of [fs], in order, under one name. *)
Definition register_all {Callback : Type} (eventName : string)
    (fs : list Callback) (em : EventManager Callback) : EventManager Callback :=
  foldl (λ em' f, (on eventName f em').2) em fs.

(** Calls that change the registry, and a program of such calls. *)
Inductive request (Callback : Type) : Type :=
| ReqOn (eventName : string) (newFunc : Callback)
| ReqOff (eventName : string) (id : nat).
Arguments ReqOn {Callback} eventName newFunc.
Arguments ReqOff {Callback} eventName id.

Definition serve {Callback : Type} (em : EventManager Callback)
    (r : request Callback) : EventManager Callback :=
  match r with
  | ReqOn eventName newFunc => (on eventName newFunc em).2
  | ReqOff eventName id => off eventName id em
  end.

Definition serve_all {Callback : Type} (rs : list (request Callback))
    (em : EventManager Callback) : EventManager Callback :=
  foldl serve em rs.

(** The name a request is about. *)
Definition request_name {Callback : Type} (r : request Callback) : string :=
  match r with
  | ReqOn eventName _ => eventName
  | ReqOff eventName _ => eventName
  end.

(** How many [on] calls for [eventName] a program makes. *)
Fixpoint registrations {Callback : Type} (eventName : string)
    (rs : list (request Callback)) : nat :=
  match rs with
  | [] => 0
  | ReqOn n _ :: rs' =>
      (if bool_decide (n = eventName) then 1 else 0)
      + registrations eventName rs'
  | ReqOff _ _ :: rs' => registrations eventName rs'
  end.

(** [off] called once per identifier of [l], in order, under one name. *)
Definition unregister_all {Callback : Type} (eventName : string)
    (l : list nat) (em : EventManager Callback) : EventManager Callback :=
  foldl (λ em' id, off eventName id em') em l.

(** ** The minimal header

    The repository also keeps the first version of the header: the same
    registry with bare functions in the vectors, no identifiers, no [off]
    and no lock. *)
Module Minimal.

(** [EventManager::on] of the minimal header; the only data member is the
    map, so the map itself is the state. *)
Definition on {Callback : Type} (eventName : string) (newFunc : Callback)
    (functionsMap : gmap string (list Callback)) : gmap string (list Callback) :=
  match functionsMap !! eventName with
  | Some functions => <[eventName := functions ++ [newFunc]]> functionsMap
  | None => <[eventName := [newFunc]]> functionsMap
  end.

(** The loop [for (auto &func : functions) func(args...)]. *)
Fixpoint invoke_all {Callback Args W Exn : Type}
    (call : Callback → Args → W → outcome W Exn)
    (functions : list Callback) (args : Args) (w : W)
    : list (Callback * Args) * outcome W Exn :=
  match functions with
  | [] => ([], Returned w)
  | func :: rest =>
      match call func args w with
      | Returned w' =>
          let r := invoke_all call rest args w' in ((func, args) :: r.1, r.2)
      | Raised e w' => ([(func, args)], Raised e w')
      end
  end.

(** [EventManager::emitEvent] of the minimal header. *)
Definition emitEvent {Callback Args W Exn : Type}
    (call : Callback → Args → W → outcome W Exn)
    (eventName : string) (args : Args)
    (functionsMap : gmap string (list Callback)) (w : W)
    : list (Callback * Args) * outcome W Exn :=
  match functionsMap !! eventName with
  | Some functions => invoke_all call functions args w
  | None => ([], Returned w)
  end.

End Minimal.

(** Forgetting the identifiers of a registry. *)
Definition erase_ids {Callback : Type} (em : EventManager Callback)
    : gmap string (list Callback) :=
  (λ functions : list (nat * Callback), snd <$> functions) <$> functionsMap em.

(** ** A concrete client

    Callbacks that append a mark and the received integer to a shared log,
    and callbacks that throw an error code. *)
Module Demo.

Inductive callback : Type :=
| Log (mark : nat)
| Throw (code : nat).

Definition world : Type := list (nat * Z).

Definition run (f : callback) (arg : Z) (log : world) : outcome world nat :=
  match f with
  | Log mark => Returned (log ++ [(mark, arg)])
  | Throw code => Raised code log
  end.

(** [f] then [g] registered under ["n"]. *)
Definition two_listeners : EventManager callback :=
  register_all "n" [Log 10; Log 20] EventManager_default.

(** A throwing function registered between two logging ones. *)
Definition with_thrower : EventManager callback :=
  register_all "n" [Log 10; Throw 3; Log 20] EventManager_default.

(** One listener under ["a"], another under ["b"]. *)
Definition two_names : EventManager callback :=
  serve_all [ReqOn "a" (Log 10); ReqOn "b" (Log 20)] EventManager_default.

(** Register twice, unregister the first, register again. *)
Definition after_reuse : EventManager callback :=
  serve_all [ReqOn "n" (Log 10); ReqOn "n" (Log 20); ReqOff "n" 0;
             ReqOn "n" (Log 30)] EventManager_default.

End Demo.

(** * Properties *)

Section Vectors.
Context {Callback : Type}.
Implicit Types (functions : list (nat * Callback)) (id : nat).

(** [remove_if] with the predicate of [off] keeps exactly the pairs whose
    identifier differs from [id]. *)
Lemma remove_if_filter id functions :
  remove_if (λ pair, Nat.eqb pair.1 id) functions
  = filter (λ pair, pair.1 ≠ id) functions.
Proof.
  induction functions as [|[k f] rest IH]; simpl; [done|].
  rewrite filter_cons; simpl.
  destruct (Nat.eqb_spec k id) as [->|Hne].
  - rewrite decide_False; [exact IH | intros H; by apply H].
  - rewrite decide_True; [by rewrite IH | done].
Qed.

Lemma remove_if_absent id functions :
  id ∉ ids functions →
  remove_if (λ pair, Nat.eqb pair.1 id) functions = functions.
Proof.
  induction functions as [|[k f] rest IH]; simpl; [done|].
  intros Hid. apply not_elem_of_cons in Hid as [Hne Hrest].
  destruct (Nat.eqb_spec k id) as [->|_]; [done|].
  f_equal. by apply IH.
Qed.

Lemma remove_if_no_match id functions :
  id ∉ ids (remove_if (λ pair, Nat.eqb pair.1 id) functions).
Proof.
  induction functions as [|[k f] rest IH]; simpl; [apply not_elem_of_nil|].
  destruct (Nat.eqb_spec k id) as [->|Hne]; [done|].
  simpl. apply not_elem_of_cons. split; [congruence | exact IH].
Qed.

Lemma remove_if_present_shorter id functions :
  id ∈ ids functions →
  length (remove_if (λ pair, Nat.eqb pair.1 id) functions) < length functions.
Proof.
  induction functions as [|[k f] rest IH]; simpl.
  - intros Hin. by apply elem_of_nil in Hin.
  - intros Hin. destruct (Nat.eqb_spec k id) as [->|Hne].
    + pose proof (length_filter (λ pair : nat * Callback, pair.1 ≠ id) rest) as Hle.
      rewrite <- remove_if_filter in Hle. lia.
    + apply elem_of_cons in Hin as [Heq|Hin]; [congruence|].
      simpl. specialize (IH Hin). lia.
Qed.

End Vectors.

Section Loop.
Context {Callback Args W Exn : Type}.
Variable call : Callback → Args → W → outcome W Exn.
Implicit Types (functions pre post : list (nat * Callback)) (args : Args).

(** When every function returns, the loop calls each pair once, in vector
    order, and ends normally. *)
Lemma invoke_all_returns args functions w w' :
  all_return call args functions w w' →
  invoke_all call functions args w = (calls args functions, Returned w').
Proof.
  induction 1 as [w | funcPair rest w w1 w' Hcall _ IH]; simpl; [done|].
  by rewrite Hcall, IH.
Qed.

(** A normal end of the loop means every function returned. *)
Lemma invoke_all_returned args functions w w' :
  (invoke_all call functions args w).2 = Returned w' →
  all_return call args functions w w'.
Proof.
  revert w. induction functions as [|funcPair rest IH]; simpl; intros w.
  - intros [= ->]. constructor.
  - destruct (call funcPair.2 args w) as [w1|e w1] eqn:Hcall; simpl; [|done].
    intros Hrest. econstructor; eauto.
Qed.

(** The first throw stops the loop: the pairs before it and the throwing
    pair were called, none after it, and the loop ends with that throw. *)
Lemma invoke_all_raises args pre id f post w w1 e w2 :
  all_return call args pre w w1 →
  call f args w1 = Raised e w2 →
  invoke_all call (pre ++ (id, f) :: post) args w
  = (calls args pre ++ [Invoke id f args], Raised e w2).
Proof.
  intros Hpre Hf.
  induction Hpre as [w | funcPair rest w w0 w1 Hcall _ IH]; simpl.
  - by rewrite Hf.
  - by rewrite Hcall, (IH Hf).
Qed.

(** Whatever happens, the calls made are an initial segment of the full
    pass. *)
Lemma invoke_all_prefix args functions w :
  (invoke_all call functions args w).1 `prefix_of` calls args functions.
Proof.
  revert w. induction functions as [|funcPair rest IH]; simpl; intros w.
  - done.
  - destruct (call funcPair.2 args w) as [w1|e w1]; simpl.
    + apply prefix_cons, IH.
    + apply prefix_cons, prefix_nil.
Qed.

Lemma emitEvent_lookup eventName args em w functions :
  functionsMap em !! eventName = Some functions →
  emitEvent call eventName args em w
  = mkEmission em (invoke_all call functions args w).1
                  (invoke_all call functions args w).2.
Proof. intros H. unfold emitEvent. by rewrite H. Qed.

End Loop.

Section Registry.
Context {Callback : Type}.
Implicit Types (em : EventManager Callback) (f : Callback).
Implicit Types (functions : list (nat * Callback)) (eventName : string).
Implicit Types (fs : list Callback).

Lemma on_lookup_Some eventName f em functions :
  functionsMap em !! eventName = Some functions →
  on eventName f em
  = (length functions,
     mkEventManager
       (<[eventName := functions ++ [(length functions, f)]]> (functionsMap em))).
Proof. intros H. unfold on. by rewrite H. Qed.

Lemma on_lookup_None eventName f em :
  functionsMap em !! eventName = None →
  on eventName f em
  = (0, mkEventManager (<[eventName := [(0, f)]]> (functionsMap em))).
Proof. intros H. unfold on. by rewrite H. Qed.

(** In both branches [on] appends one pair numbered by the old length. *)
Lemma functions_of_on eventName f em :
  functions_of eventName (on eventName f em).2
  = functions_of eventName em
    ++ [(length (functions_of eventName em), f)].
Proof.
  unfold functions_of, on.
  destruct (functionsMap em !! eventName) as [functions|]; simpl;
    by rewrite lookup_insert_eq.
Qed.

Lemma on_other eventName other f em :
  eventName ≠ other →
  functionsMap (on eventName f em).2 !! other = functionsMap em !! other.
Proof.
  intros Hne. unfold on.
  destruct (functionsMap em !! eventName); simpl; by rewrite lookup_insert_ne.
Qed.

Lemma on_is_Some eventName f em :
  is_Some (functionsMap (on eventName f em).2 !! eventName).
Proof.
  unfold on. destruct (functionsMap em !! eventName); simpl;
    rewrite lookup_insert_eq; eauto.
Qed.

Lemma off_lookup_Some eventName id em functions :
  functionsMap em !! eventName = Some functions →
  functionsMap (off eventName id em) !! eventName
  = Some (filter (λ pair, pair.1 ≠ id) functions).
Proof.
  intros H. unfold off. rewrite H. simpl.
  by rewrite lookup_insert_eq, remove_if_filter.
Qed.

Lemma off_other eventName other id em :
  eventName ≠ other →
  functionsMap (off eventName id em) !! other = functionsMap em !! other.
Proof.
  intros Hne. unfold off.
  destruct (functionsMap em !! eventName); simpl; [|done].
  by rewrite lookup_insert_ne.
Qed.

Lemma off_dom eventName id em :
  dom (functionsMap (off eventName id em)) = dom (functionsMap em).
Proof.
  unfold off. destruct (functionsMap em !! eventName) eqn:H; simpl; [|done].
  rewrite dom_insert_L. apply elem_of_dom_2 in H.
  apply subseteq_union_1_L. by apply singleton_subseteq_l.
Qed.

(** Registering [fs] one after the other numbers them from the length the
    vector had before. *)
Lemma functions_of_register_all eventName fs em :
  functions_of eventName (register_all eventName fs em)
  = functions_of eventName em
    ++ imap (λ i f, (length (functions_of eventName em) + i, f)) fs.
Proof.
  revert em. induction fs as [|f fs IH]; intros em; simpl.
  - by rewrite app_nil_r.
  - unfold register_all in *. simpl. rewrite IH, functions_of_on.
    rewrite <- app_assoc. simpl. rewrite length_app. simpl.
    rewrite Nat.add_0_r. do 2 f_equal.
    apply imap_ext. intros i x Hx. simpl. f_equal. lia.
Qed.

Lemma register_all_default eventName fs :
  functions_of eventName (register_all eventName fs EventManager_default)
  = imap pair fs.
Proof.
  rewrite functions_of_register_all. unfold functions_of. simpl.
  rewrite lookup_empty. simpl. by apply imap_ext.
Qed.

Lemma register_all_lookup eventName fs em :
  fs ≠ [] →
  functionsMap (register_all eventName fs em) !! eventName
  = Some (functions_of eventName (register_all eventName fs em)).
Proof.
  destruct fs as [|f fs _] using rev_ind; [done|]. intros _.
  unfold register_all. rewrite foldl_app. simpl.
  unfold functions_of.
  by destruct (on_is_Some eventName f
                 (foldl (λ em' f0, (on eventName f0 em').2) em fs)) as [v ->].
Qed.

End Registry.

Section Emission.
Context {Callback Args W Exn : Type}.
Variable call : Callback → Args → W → outcome W Exn.
Implicit Types (em : EventManager Callback) (f : Callback) (args : Args).
Implicit Types (functions pre post : list (nat * Callback)).
Implicit Types (eventName : string) (fs : list Callback).

(** An emission in which every stored function returns makes the calls of
    a full pass over the name's vector, whatever the registry. *)
Lemma emitEvent_returns eventName args em w w' :
  all_return call args (functions_of eventName em) w w' →
  emitEvent call eventName args em w
  = mkEmission em (calls args (functions_of eventName em)) (Returned w').
Proof.
  unfold functions_of, emitEvent.
  destruct (functionsMap em !! eventName) as [functions|]; simpl; intros Hret.
  - by rewrite (invoke_all_returns call _ _ _ _ Hret).
  - by inversion Hret.
Qed.

(** The calls of an emission are always taken, in order, from the front of
    the emitted name's vector. *)
Lemma emitEvent_prefix eventName args em w :
  em_trace (emitEvent call eventName args em w)
    `prefix_of` calls args (functions_of eventName em).
Proof.
  unfold functions_of, emitEvent.
  destruct (functionsMap em !! eventName) as [functions|]; simpl.
  - apply invoke_all_prefix.
  - done.
Qed.

(** C1.  Start from a fresh registry and call [on] for [fs], in that order,
    under one name.  An emission for that name in which the registered
    functions return calls every one of them exactly once, in registration
    order, each with the emitted arguments: the i-th call is the i-th
    registered function, under identifier i. The emission returns, and the
    registry is as before. *)
Theorem emitEvent_registration_order eventName fs args w w' :
  all_return call args
    (functions_of eventName (register_all eventName fs EventManager_default))
    w w' →
  functions_of eventName (register_all eventName fs EventManager_default)
  = imap pair fs ∧
  emitEvent call eventName args
    (register_all eventName fs EventManager_default) w
  = mkEmission (register_all eventName fs EventManager_default)
      (imap (λ i f, Invoke i f args) fs) (Returned w').
Proof.
  intros Hret. split; [apply register_all_default|].
  rewrite (emitEvent_returns _ _ _ _ _ Hret), register_all_default.
  f_equal. unfold calls. by rewrite fmap_imap.
Qed.

(** C6.  Emitting a name that has no container calls nothing, returns
    normally with the world untouched, and leaves the registry as it was. *)
Theorem emitEvent_unknown_name eventName args em w :
  functionsMap em !! eventName = None →
  emitEvent call eventName args em w = mkEmission em [] (Returned w).
Proof. intros H. unfold emitEvent. by rewrite H. Qed.

(** C7.  If the function at some position of the name's vector throws
    while those before it returned, the emission has called exactly the
    functions up to and including that one, none of the later ones, and it
    ends with the very same exception and the world the throw left. *)
Theorem emitEvent_exception_propagates
    eventName args em pre id f post w w1 e w2 :
  functionsMap em !! eventName = Some (pre ++ (id, f) :: post) →
  all_return call args pre w w1 →
  call f args w1 = Raised e w2 →
  emitEvent call eventName args em w
  = mkEmission em (calls args pre ++ [Invoke id f args]) (Raised e w2).
Proof.
  intros Hlook Hpre Hf.
  rewrite (emitEvent_lookup call _ _ _ _ _ Hlook).
  by rewrite (invoke_all_raises call _ _ _ _ _ _ _ _ _ Hpre Hf).
Qed.

(** What [off] does to a name's vector, told by identifier.  Let [id] be
    carried by some pair of the vector stored under a
    name.  After [off] for that name and [id]: the vector holds exactly the
    pairs with another identifier, all of them, in their original order,
    and it is strictly shorter; no emission for the name calls a pair
    carrying [id]; and an emission in which the remaining functions return
    calls exactly the remaining pairs, in their original relative order. *)
Theorem off_then_emitEvent eventName id em functions :
  functionsMap em !! eventName = Some functions →
  id ∈ ids functions →
  functionsMap (off eventName id em) !! eventName
  = Some (filter (λ pair, pair.1 ≠ id) functions) ∧
  length (filter (λ pair, pair.1 ≠ id) functions) < length functions ∧
  (∀ pair, pair ∈ functions → pair.1 ≠ id →
     pair ∈ filter (λ pair, pair.1 ≠ id) functions) ∧
  filter (λ pair, pair.1 ≠ id) functions `sublist_of` functions ∧
  (∀ args w,
     Forall (λ i, inv_id i ≠ id)
       (em_trace (emitEvent call eventName args (off eventName id em) w))) ∧
  (∀ args w w',
     all_return call args (filter (λ pair, pair.1 ≠ id) functions) w w' →
     emitEvent call eventName args (off eventName id em) w
     = mkEmission (off eventName id em)
         (calls args (filter (λ pair, pair.1 ≠ id) functions))
         (Returned w')).
Proof.
  intros Hlook Hid.
  pose proof (off_lookup_Some eventName id em functions Hlook) as Hoff.
  assert (Hfo : functions_of eventName (off eventName id em)
                = filter (λ pair, pair.1 ≠ id) functions)
    by (unfold functions_of; by rewrite Hoff).
  split; [exact Hoff|]. split.
  { rewrite <- remove_if_filter. by apply remove_if_present_shorter. }
  split.
  { intros pair Hin Hne. by apply list_elem_of_filter. }
  split; [apply sublist_filter|]. split.
  - intros args w.
    pose proof (emitEvent_prefix eventName args (off eventName id em) w)
      as [rest Hpre].
    rewrite Hfo in Hpre.
    assert (Hall : Forall (λ i : invocation Callback Args, inv_id i ≠ id)
                     (calls args (filter (λ pair, pair.1 ≠ id) functions))).
    { unfold calls. apply Forall_fmap, Forall_forall.
      intros pair Hin. apply list_elem_of_filter in Hin as [Hne _]. exact Hne. }
    rewrite Hpre in Hall. by apply Forall_app in Hall as [Hall _].
  - intros args w w' Hret. rewrite <- Hfo in Hret.
    by rewrite (emitEvent_returns _ _ _ _ _ Hret), Hfo.
Qed.

End Emission.

Section Registration.
Context {Callback : Type}.
Implicit Types (em : EventManager Callback) (f : Callback).
Implicit Types (functions : list (nat * Callback)) (eventName : string).

(** C4.  [on] for a name that has a container returns the number of pairs
    stored there before the call and appends the new pair under that
    number; for a name without a container it returns 0 and the name gets
    a container holding that single pair. *)
Theorem on_returns_current_length eventName f em :
  match functionsMap em !! eventName with
  | Some functions =>
      (on eventName f em).1 = length functions ∧
      functionsMap (on eventName f em).2 !! eventName
      = Some (functions ++ [(length functions, f)])
  | None =>
      (on eventName f em).1 = 0 ∧
      functionsMap (on eventName f em).2 !! eventName = Some [(0, f)]
  end.
Proof.
  destruct (functionsMap em !! eventName) as [functions|] eqn:H.
  - rewrite (on_lookup_Some _ _ _ _ H). simpl. by rewrite lookup_insert_eq.
  - rewrite (on_lookup_None _ _ _ H). simpl. by rewrite lookup_insert_eq.
Qed.

(** C5.  [off] for a name without a container, or for an identifier that
    no pair of the name's vector carries, returns the registry it was
    given: the map and every vector in it are the same. *)
Theorem off_absent_is_noop eventName id em :
  functionsMap em !! eventName = None ∨
  (∃ functions,
     functionsMap em !! eventName = Some functions ∧ id ∉ ids functions) →
  off eventName id em = em.
Proof.
  intros [Hnone | (functions & Hlook & Hid)]; unfold off.
  - by rewrite Hnone.
  - rewrite Hlook, (remove_if_absent _ _ Hid). destruct em as [m]; simpl in *.
    f_equal. by apply insert_id.
Qed.

(** C10.  [off] drops every pair that carries the identifier, however many
    there are, never the map entry: the name keeps its container, also
    when that container ends up empty, and the set of names is the same. *)
Theorem off_removes_every_match eventName id em functions :
  functionsMap em !! eventName = Some functions →
  functionsMap (off eventName id em) !! eventName
  = Some (filter (λ pair, pair.1 ≠ id) functions) ∧
  (id ∉ ids (filter (λ pair, pair.1 ≠ id) functions)) ∧
  ((∀ pair, pair ∈ functions → pair.1 = id) →
     functionsMap (off eventName id em) !! eventName = Some []) ∧
  dom (functionsMap (off eventName id em)) = dom (functionsMap em).
Proof.
  intros Hlook.
  pose proof (off_lookup_Some eventName id em functions Hlook) as Hoff.
  split; [exact Hoff|]. split.
  { rewrite <- remove_if_filter. apply remove_if_no_match. }
  split; [|apply off_dom].
  intros Hall. rewrite Hoff. f_equal.
  clear -Hall. induction functions as [|pair rest IH]; [done|].
  rewrite filter_cons_False.
  - apply IH. intros p Hp. apply Hall. by right.
  - intros Hne. apply Hne, Hall. by left.
Qed.

(** Identifiers handed out while nothing is unregistered are pairwise
    distinct: they count up from 0. *)
Lemma register_all_ids eventName (fs : list Callback) :
  ids (functions_of eventName (register_all eventName fs EventManager_default))
  = seq 0 (length fs) ∧
  NoDup (ids (functions_of eventName
                (register_all eventName fs EventManager_default))).
Proof.
  rewrite register_all_default.
  assert (Hseq : ids (imap pair fs) = seq 0 (length fs)).
  { unfold ids. rewrite fmap_imap.
    assert (Hn : ∀ n, imap (λ i, fst ∘ pair (n + i)) fs = seq n (length fs)).
    { induction fs as [|f fs IH]; intros n; [done|].
      rewrite imap_cons. simpl. f_equal; [lia|].
      rewrite <- (IH (S n)). apply imap_ext. intros i x Hx. simpl. lia. }
    exact (Hn 0). }
  rewrite Hseq. split; [done | apply NoDup_seq].
Qed.

(** C2.  The identifier of [on] is the current length of the vector, so
    after an earlier pair is unregistered it is handed out again: [on] f0,
    [on] f1, [off] 0, [on] f2 under one name returns 1 for f2 while f1
    still carries 1, and the vector then holds two pairs with identifier 1. *)
Theorem on_after_off_reuses_identifier eventName (f0 f1 f2 : Callback) :
  (on eventName f2
     (serve_all [ReqOn eventName f0; ReqOn eventName f1; ReqOff eventName 0]
        EventManager_default)).1 = 1 ∧
  functionsMap
    (serve_all [ReqOn eventName f0; ReqOn eventName f1; ReqOff eventName 0;
                ReqOn eventName f2] EventManager_default) !! eventName
  = Some [(1, f1); (1, f2)] ∧
  ¬ NoDup (ids [(1, f1); (1, f2)]).
Proof.
  assert (H2 : functionsMap (register_all eventName [f0; f1] EventManager_default)
               !! eventName = Some [(0, f0); (1, f1)]).
  { rewrite register_all_lookup by done. by rewrite register_all_default. }
  assert (H3 : functionsMap
                 (off eventName 0
                    (register_all eventName [f0; f1] EventManager_default))
               !! eventName = Some [(1, f1)]).
  { by rewrite (off_lookup_Some _ _ _ _ H2). }
  unfold serve_all. simpl. unfold register_all in H3. simpl in H3.
  rewrite (on_lookup_Some _ _ _ _ H3). simpl.
  repeat split.
  - by rewrite lookup_insert_eq.
  - intros Hnd. apply NoDup_cons in Hnd as [Hnotin _].
    apply Hnotin. by left.
Qed.

(** A name has no container exactly when [on] was never called for it:
    [off] neither creates nor removes a container. *)
Lemma no_container_iff_never_registered eventName
    (rs : list (request Callback)) :
  functionsMap (serve_all rs EventManager_default) !! eventName = None ↔
  Forall (λ r, match r with
               | ReqOn n _ => n ≠ eventName
               | ReqOff _ _ => True
               end) rs.
Proof.
  assert (Hgen : ∀ em,
    functionsMap (serve_all rs em) !! eventName = None ↔
    functionsMap em !! eventName = None ∧
    Forall (λ r, match r with
                 | ReqOn n _ => n ≠ eventName
                 | ReqOff _ _ => True
                 end) rs).
  { unfold serve_all. induction rs as [|r rs IH]; intros em; simpl.
    - split; [intros H; by split | by intros [H _]].
    - rewrite IH, Forall_cons. destruct r as [n g | n k]; simpl.
      + destruct (decide (n = eventName)) as [->|Hne].
        * destruct (on_is_Some eventName g em) as [v Hv]. rewrite Hv.
          split; [by intros [Hcontra _] | by intros (_ & Hcontra & _)].
        * rewrite (on_other _ _ _ _ Hne). tauto.
      + assert (Hoff : functionsMap (off n k em) !! eventName = None ↔
                       functionsMap em !! eventName = None).
        { rewrite <- !not_elem_of_dom. by rewrite off_dom. }
        rewrite Hoff. tauto. }
  rewrite Hgen. simpl. rewrite lookup_empty. tauto.
Qed.

End Registration.

Section ReusedIdentifier.
Context {Callback Args W Exn : Type}.
Variable call : Callback → Args → W → outcome W Exn.
Implicit Types (f : Callback) (args : Args) (eventName : string).

Lemma lookup_before_reuse eventName f0 f1 :
  functionsMap
    (serve_all [ReqOn eventName f0; ReqOn eventName f1; ReqOff eventName 0]
       EventManager_default) !! eventName
  = Some [(1, f1)].
Proof.
  assert (H2 : functionsMap
                 (register_all eventName [f0; f1] EventManager_default)
               !! eventName = Some [(0, f0); (1, f1)]).
  { rewrite register_all_lookup by done. by rewrite register_all_default. }
  unfold serve_all. simpl. unfold register_all in H2. simpl in H2.
  by rewrite (off_lookup_Some _ _ _ _ H2).
Qed.

Lemma lookup_after_reuse eventName f0 f1 f2 :
  functionsMap
    (serve_all [ReqOn eventName f0; ReqOn eventName f1; ReqOff eventName 0;
                ReqOn eventName f2] EventManager_default) !! eventName
  = Some [(1, f1); (1, f2)].
Proof.
  pose proof (lookup_before_reuse eventName f0 f1) as H3.
  unfold serve_all in *. simpl in *.
  rewrite (on_lookup_Some _ _ _ _ H3). simpl. by rewrite lookup_insert_eq.
Qed.

(** C3.  [off] with a stored identifier does not always leave every other
    callback in place.  After [on] f0, [on] f1, [off] 0, the call [on] f2
    returns 1, the identifier f1 still carries.  [off] with that 1, meant
    for f2, empties the vector: the pair of f1, present before, is gone,
    and an emission for the name calls nothing, f1 included. *)
Theorem off_reused_identifier_removes_another_callback
    eventName f0 f1 f2 args w :
  (on eventName f2
     (serve_all [ReqOn eventName f0; ReqOn eventName f1; ReqOff eventName 0]
        EventManager_default)).1 = 1 ∧
  (1, f1) ∈ functions_of eventName
              (serve_all [ReqOn eventName f0; ReqOn eventName f1;
                          ReqOff eventName 0; ReqOn eventName f2]
                 EventManager_default) ∧
  functionsMap
    (off eventName 1
       (serve_all [ReqOn eventName f0; ReqOn eventName f1;
                   ReqOff eventName 0; ReqOn eventName f2]
          EventManager_default)) !! eventName
  = Some [] ∧
  emitEvent call eventName args
    (off eventName 1
       (serve_all [ReqOn eventName f0; ReqOn eventName f1;
                   ReqOff eventName 0; ReqOn eventName f2]
          EventManager_default)) w
  = mkEmission
      (off eventName 1
         (serve_all [ReqOn eventName f0; ReqOn eventName f1;
                     ReqOff eventName 0; ReqOn eventName f2]
            EventManager_default))
      [] (Returned w).
Proof.
  pose proof (lookup_before_reuse eventName f0 f1) as H3.
  pose proof (lookup_after_reuse eventName f0 f1 f2) as H4.
  pose proof (off_lookup_Some eventName 1 _ _ H4) as H5.
  change (filter (λ pair : nat * Callback, pair.1 ≠ 1) [(1, f1); (1, f2)])
    with (@nil (nat * Callback)) in H5.
  split; [by rewrite (on_lookup_Some _ _ _ _ H3)|].
  split; [unfold functions_of; rewrite H4; by left|].
  split; [exact H5|].
  by rewrite (emitEvent_lookup call _ _ _ _ _ H5).
Qed.

End ReusedIdentifier.

Section Frame.
Context {Callback Args W Exn : Type}.
Variable call : Callback → Args → W → outcome W Exn.
Implicit Types (em : EventManager Callback) (f : Callback) (args : Args).
Implicit Types (functions : list (nat * Callback)).

(** C8.  For two distinct names [a] and [b]: [on] under [a] leaves the
    vector of [b] as it was; an emission of [a] leaves the registry as it
    was, every call it makes is a pair stored under [a] and receives
    exactly the emitted arguments; and its calls and its result do not
    depend on what is stored under [b]: no function of [b] is run. *)
Theorem distinct_names_are_independent (a b : string) :
  a ≠ b →
  (∀ f em, functionsMap (on a f em).2 !! b = functionsMap em !! b) ∧
  (∀ args em w,
     em_after (emitEvent call a args em w) = em ∧
     Forall (λ i, inv_args i = args ∧
                  (inv_id i, inv_fn i) ∈ functions_of a em)
       (em_trace (emitEvent call a args em w))) ∧
  (∀ args em w functions,
     em_trace (emitEvent call a args
                 (mkEventManager (<[b := functions]> (functionsMap em))) w)
     = em_trace (emitEvent call a args em w) ∧
     em_outcome (emitEvent call a args
                   (mkEventManager (<[b := functions]> (functionsMap em))) w)
     = em_outcome (emitEvent call a args em w)).
Proof.
  intros Hab. split; [intros f em; by apply on_other|]. split.
  - intros args em w. split.
    + unfold emitEvent. by destruct (functionsMap em !! a).
    + destruct (emitEvent_prefix call a args em w) as [rest Hpre].
      assert (Hall : Forall (λ i : invocation Callback Args,
                        inv_args i = args ∧
                        (inv_id i, inv_fn i) ∈ functions_of a em)
                       (calls args (functions_of a em))).
      { unfold calls. apply Forall_fmap, Forall_forall.
        intros [k g] Hin. simpl. by split. }
      rewrite Hpre in Hall. by apply Forall_app in Hall as [Hall _].
  - intros args em w functions. unfold emitEvent. simpl.
    rewrite lookup_insert_ne by done.
    by destruct (functionsMap em !! a).
Qed.

End Frame.

Section Refinement.
Context {Callback Args W Exn : Type}.
Variable call : Callback → Args → W → outcome W Exn.
Implicit Types (em : EventManager Callback) (args : Args).

Lemma invoke_all_erase (functions : list (nat * Callback)) args w :
  Minimal.invoke_all call (snd <$> functions) args w
  = ((λ i, (inv_fn i, inv_args i)) <$> (invoke_all call functions args w).1,
     (invoke_all call functions args w).2).
Proof.
  revert w. induction functions as [|[k g] rest IH]; intros w; simpl; [done|].
  destruct (call g args w) as [w1|e w1]; simpl; [|done].
  by rewrite IH.
Qed.

(** The header with identifiers refines the minimal one: with the
    identifiers forgotten, [on] is the minimal [on], and an emission calls
    the same functions with the same arguments and ends the same way. *)
Theorem identifiers_refine_minimal eventName (f : Callback) args em w :
  erase_ids (on eventName f em).2 = Minimal.on eventName f (erase_ids em) ∧
  Minimal.emitEvent call eventName args (erase_ids em) w
  = ((λ i, (inv_fn i, inv_args i))
       <$> em_trace (emitEvent call eventName args em w),
     em_outcome (emitEvent call eventName args em w)).
Proof.
  split.
  - unfold erase_ids, on, Minimal.on. rewrite lookup_fmap.
    destruct (functionsMap em !! eventName) as [functions|]; simpl.
    + by rewrite fmap_insert, fmap_app.
    + by rewrite fmap_insert.
  - unfold erase_ids, emitEvent, Minimal.emitEvent. rewrite lookup_fmap.
    destruct (functionsMap em !! eventName) as [functions|]; simpl; [|done].
    apply invoke_all_erase.
Qed.

End Refinement.

(** * Further properties of the three operations *)

Section Composition.
Context {Callback Args W Exn : Type}.
Variable call : Callback → Args → W → outcome W Exn.
Implicit Types (em : EventManager Callback) (f : Callback) (args : Args).
Implicit Types (functions pre post : list (nat * Callback)).
Implicit Types (eventName : string).

(** The loop over a concatenation: the second part runs from the world the
    first part left, and only if the first part returned. *)
Lemma invoke_all_app pre post args w :
  invoke_all call (pre ++ post) args w
  = match (invoke_all call pre args w).2 with
    | Returned w1 =>
        ((invoke_all call pre args w).1 ++ (invoke_all call post args w1).1,
         (invoke_all call post args w1).2)
    | Raised _ _ => invoke_all call pre args w
    end.
Proof.
  revert w. induction pre as [|funcPair rest IH]; intros w; simpl.
  - by destruct (invoke_all call post args w).
  - destruct (call funcPair.2 args w) as [w1|e w1]; simpl; [|done].
    rewrite IH. by destruct (invoke_all call rest args w1) as [tr [w2|e w2]].
Qed.

Lemma invoke_all_cases args functions w :
  (∃ w', all_return call args functions w w' ∧
         invoke_all call functions args w
         = (calls args functions, Returned w')) ∨
  (∃ pre id f post w1 e w2,
     functions = pre ++ (id, f) :: post ∧
     all_return call args pre w w1 ∧
     call f args w1 = Raised e w2 ∧
     invoke_all call functions args w
     = (calls args pre ++ [Invoke id f args], Raised e w2)).
Proof.
  revert w. induction functions as [|[k g] rest IH]; intros w.
  - left. exists w. split; [constructor | done].
  - simpl. destruct (call g args w) as [w1|e w1] eqn:Hcall.
    + destruct (IH w1) as [(w' & Hret & Heq)
                          |(pre & id & f & post & w2 & e & w3
                            & -> & Hret & Hf & Heq)].
      * left. exists w'. split; [by econstructor|]. by rewrite Heq.
      * right. exists ((k, g) :: pre), id, f, post, w2, e, w3.
        split; [done|]. split; [by econstructor|]. split; [done|].
        by rewrite Heq.
    + right. exists [], k, g, rest, w, e, w1.
      split; [done|]. split; [constructor|]. by split.
Qed.

(** An emission ends in exactly one of two ways.  Either every stored
    function returned, and then each stored pair was called once, in
    vector order; or the vector splits at the first function that threw:
    the pairs up to and including it were called, the later ones were not,
    and the emission ends with that exception. *)
Theorem emitEvent_returns_or_stops_at_first_throw eventName args em w :
  (∃ w', all_return call args (functions_of eventName em) w w' ∧
         emitEvent call eventName args em w
         = mkEmission em (calls args (functions_of eventName em))
             (Returned w')) ∨
  (∃ pre id f post w1 e w2,
     functions_of eventName em = pre ++ (id, f) :: post ∧
     all_return call args pre w w1 ∧
     call f args w1 = Raised e w2 ∧
     emitEvent call eventName args em w
     = mkEmission em (calls args pre ++ [Invoke id f args]) (Raised e w2)).
Proof.
  unfold functions_of, emitEvent.
  destruct (functionsMap em !! eventName) as [functions|]; simpl.
  - destruct (invoke_all_cases args functions w)
      as [(w' & Hret & Heq)
         |(pre & id & f & post & w1 & e & w2 & Hsplit & Hret & Hf & Heq)].
    + left. exists w'. split; [done|]. by rewrite Heq.
    + right. exists pre, id, f, post, w1, e, w2.
      repeat (split; [done|]). by rewrite Heq.
  - left. exists w. split; [constructor | done].
Qed.

(** A function registered with [on] runs last.  If the emission for the
    name returned before the registration, the emission after it makes the
    same calls followed by one call of the new function, under the
    identifier [on] returned, from the world the earlier calls left, and
    ends as that call ends.  If the emission threw before, the new
    function is never reached: calls and exception are the same. *)
Theorem emitEvent_after_on eventName f args em w :
  match em_outcome (emitEvent call eventName args em w) with
  | Returned w1 =>
      emitEvent call eventName args (on eventName f em).2 w
      = mkEmission (on eventName f em).2
          (em_trace (emitEvent call eventName args em w)
           ++ [Invoke (on eventName f em).1 f args])
          (call f args w1)
  | Raised e w1 =>
      emitEvent call eventName args (on eventName f em).2 w
      = mkEmission (on eventName f em).2
          (em_trace (emitEvent call eventName args em w)) (Raised e w1)
  end.
Proof.
  unfold emitEvent, on.
  destruct (functionsMap em !! eventName) as [functions|]; simpl;
    rewrite lookup_insert_eq.
  - rewrite invoke_all_app. simpl.
    destruct (invoke_all call functions args w) as [tr [w1|e w1]]; simpl;
      [|done].
    by destruct (call f args w1).
  - simpl. by destruct (call f args w).
Qed.

End Composition.

Section Unregistration.
Context {Callback : Type}.
Implicit Types (em : EventManager Callback) (f : Callback).
Implicit Types (functions : list (nat * Callback)) (eventName : string).
Implicit Types (id : nat).

Lemma remove_if_app {A : Type} (pred : A → bool) (v1 v2 : list A) :
  remove_if pred (v1 ++ v2) = remove_if pred v1 ++ remove_if pred v2.
Proof.
  induction v1 as [|x v1 IH]; simpl; [done|].
  destruct (pred x); simpl; by rewrite IH.
Qed.

Lemma remove_if_idem {A : Type} (pred : A → bool) (v : list A) :
  remove_if pred (remove_if pred v) = remove_if pred v.
Proof.
  induction v as [|x v IH]; simpl; [done|].
  destruct (pred x) eqn:Hx; simpl; [done|]. by rewrite Hx, IH.
Qed.

Lemma remove_if_comm {A : Type} (pred1 pred2 : A → bool) (v : list A) :
  remove_if pred1 (remove_if pred2 v) = remove_if pred2 (remove_if pred1 v).
Proof.
  induction v as [|x v IH]; simpl; [done|].
  destruct (pred1 x) eqn:H1, (pred2 x) eqn:H2; simpl;
    rewrite ?H1, ?H2; by rewrite IH.
Qed.

Lemma ids_remove_if_subseteq id k functions :
  k ∈ ids (remove_if (λ pair, Nat.eqb pair.1 id) functions) →
  k ∈ ids functions.
Proof.
  induction functions as [|[j g] rest IH]; simpl; [done|].
  destruct (Nat.eqb j id); simpl.
  - intros Hin. right. by apply IH.
  - intros Hin. apply elem_of_cons in Hin as [->|Hin]; [by left|].
    right. by apply IH.
Qed.

Lemma functions_of_off eventName id em :
  functions_of eventName (off eventName id em)
  = remove_if (λ pair, Nat.eqb pair.1 id) (functions_of eventName em).
Proof.
  unfold functions_of, off.
  destruct (functionsMap em !! eventName) as [functions|] eqn:H; simpl.
  - by rewrite lookup_insert_eq.
  - by rewrite H.
Qed.

Lemma on_fst eventName f em :
  (on eventName f em).1 = length (functions_of eventName em).
Proof.
  unfold on, functions_of. by destruct (functionsMap em !! eventName).
Qed.

(** Unregistering the same identifier a second time changes nothing. *)
Theorem off_idempotent eventName id em :
  off eventName id (off eventName id em) = off eventName id em.
Proof.
  unfold off at 2 3.
  destruct (functionsMap em !! eventName) as [functions|] eqn:H.
  - unfold off. simpl. rewrite lookup_insert_eq, insert_insert_eq.
    by rewrite remove_if_idem.
  - unfold off. by rewrite H.
Qed.

(** Two [off] calls can be made in either order, under the same name or
    under different names: the registry they leave is the same. *)
Theorem off_commutes eventName1 id1 eventName2 id2 em :
  off eventName1 id1 (off eventName2 id2 em)
  = off eventName2 id2 (off eventName1 id1 em).
Proof.
  destruct (decide (eventName1 = eventName2)) as [->|Hne].
  - unfold off.
    destruct (functionsMap em !! eventName2) as [functions|] eqn:H; simpl.
    + rewrite !lookup_insert_eq, !insert_insert_eq.
      by rewrite remove_if_comm.
    + by rewrite H.
  - unfold off.
    destruct (functionsMap em !! eventName1) as [v1|] eqn:H1,
             (functionsMap em !! eventName2) as [v2|] eqn:H2; simpl;
      rewrite ?lookup_insert_ne by done; rewrite ?H1, ?H2; simpl; try done.
    by rewrite insert_insert_ne.
Qed.

(** [off] with the identifier that [on] has just returned undoes the
    registration, provided no pair stored before carried that identifier:
    the name's vector is the one stored before, other names are untouched,
    and if the name had a container already the registry is exactly the
    one before. (A name that had no container keeps the new, now empty,
    one.) *)
Theorem off_undoes_on eventName f em :
  (on eventName f em).1 ∉ ids (functions_of eventName em) →
  functions_of eventName
    (off eventName (on eventName f em).1 (on eventName f em).2)
  = functions_of eventName em ∧
  (∀ other, other ≠ eventName →
     functionsMap (off eventName (on eventName f em).1 (on eventName f em).2)
       !! other
     = functionsMap em !! other) ∧
  (is_Some (functionsMap em !! eventName) →
   off eventName (on eventName f em).1 (on eventName f em).2 = em).
Proof.
  intros Hfresh.
  assert (Hvec : functions_of eventName
                   (off eventName (on eventName f em).1 (on eventName f em).2)
                 = functions_of eventName em).
  { rewrite functions_of_off, functions_of_on, remove_if_app, on_fst.
    rewrite on_fst in Hfresh. rewrite (remove_if_absent _ _ Hfresh). simpl.
    rewrite Nat.eqb_refl. by rewrite app_nil_r. }
  split; [exact Hvec|]. split.
  - intros other Hne. rewrite off_other by done. by rewrite on_other.
  - intros [functions Hlook]. unfold functions_of in Hvec.
    destruct em as [m]; simpl in *.
    unfold off, on in *. simpl in *. rewrite Hlook in *. simpl in *.
    rewrite lookup_insert_eq in *. simpl in *.
    rewrite lookup_insert_eq in Hvec. simpl in Hvec. rewrite Hvec.
    f_equal. rewrite insert_insert_eq. by apply insert_id.
Qed.

Lemma remove_if_unique_length id functions :
  NoDup (ids functions) → id ∈ ids functions →
  length (remove_if (λ pair, Nat.eqb pair.1 id) functions) + 1
  = length functions.
Proof.
  induction functions as [|[k g] rest IH]; simpl.
  - intros _ Hin. by apply elem_of_nil in Hin.
  - intros Hnd Hin. apply NoDup_cons in Hnd as [Hk Hnd].
    destruct (Nat.eqb_spec k id) as [->|Hne].
    + rewrite (remove_if_absent _ _ Hk). lia.
    + apply elem_of_cons in Hin as [Heq|Hin]; [congruence|].
      simpl. specialize (IH Hnd Hin). lia.
Qed.

Lemma remove_if_NoDup id functions :
  NoDup (ids functions) →
  NoDup (ids (remove_if (λ pair, Nat.eqb pair.1 id) functions)).
Proof.
  induction functions as [|[k g] rest IH]; simpl; [done|].
  intros Hnd. apply NoDup_cons in Hnd as [Hk Hnd].
  destruct (Nat.eqb k id); simpl; [by apply IH|].
  apply NoDup_cons. split; [|by apply IH].
  intros Hin. by apply Hk, (ids_remove_if_subseteq id).
Qed.

(** While the identifiers stored under a name are pairwise distinct, [off]
    with a stored identifier removes exactly one pair, and the identifiers
    left are still pairwise distinct. *)
Theorem off_removes_exactly_one eventName id em :
  NoDup (ids (functions_of eventName em)) →
  id ∈ ids (functions_of eventName em) →
  length (functions_of eventName (off eventName id em)) + 1
  = length (functions_of eventName em) ∧
  NoDup (ids (functions_of eventName (off eventName id em))).
Proof.
  intros Hnd Hin. rewrite functions_of_off. split.
  - by apply remove_if_unique_length.
  - by apply remove_if_NoDup.
Qed.

(** The identifiers of a name stay 0, 1, ..., n-1 as long as functions are
    unregistered last-registered-first: if they are 0..n-1, they are 0..n
    after [on], and 0..n-2 after [off] with the last identifier n-1. *)
Theorem last_in_first_out_keeps_identifiers eventName f em :
  ids (functions_of eventName em)
  = seq 0 (length (functions_of eventName em)) →
  ids (functions_of eventName (on eventName f em).2)
  = seq 0 (S (length (functions_of eventName em))) ∧
  ids (functions_of eventName
         (off eventName (length (functions_of eventName em) - 1) em))
  = seq 0 (length (functions_of eventName em) - 1).
Proof.
  intros Hids. split.
  - rewrite functions_of_on. unfold ids in *. rewrite fmap_app, Hids.
    by rewrite seq_S.
  - rewrite functions_of_off.
    destruct (functions_of eventName em) as [|p l _] using rev_ind; [done|].
    unfold ids in *. rewrite length_app in *. simpl in *.
    rewrite Nat.add_1_r in *. rewrite fmap_app, seq_S in Hids. simpl in Hids.
    apply app_inj_tail in Hids as [Hl Hp].
    replace (S (length l) - 1) with (length l) by lia.
    rewrite remove_if_app. simpl. rewrite Hp, Nat.eqb_refl, app_nil_r.
    rewrite remove_if_absent; [done|].
    unfold ids. rewrite Hl. rewrite elem_of_seq. lia.
Qed.

End Unregistration.

Section Emptying.
Context {Callback Args W Exn : Type}.
Variable call : Callback → Args → W → outcome W Exn.
Implicit Types (em : EventManager Callback) (args : Args).
Implicit Types (eventName : string).

Lemma remove_if_elem_of {A : Type} (pred : A → bool) (v : list A) x :
  x ∈ remove_if pred v → x ∈ v ∧ pred x = false.
Proof.
  induction v as [|y v IH]; simpl; [by intros H; apply elem_of_nil in H|].
  destruct (pred y) eqn:Hy.
  - intros H. destruct (IH H). split; [by right | done].
  - intros H. apply elem_of_cons in H as [->|H]; [by split; [left|]|].
    destruct (IH H). split; [by right | done].
Qed.

Lemma unregister_all_covering eventName (l : list nat) em :
  (∀ pair, pair ∈ functions_of eventName em → pair.1 ∈ l) →
  functions_of eventName (unregister_all eventName l em) = [] ∧
  dom (functionsMap (unregister_all eventName l em)) = dom (functionsMap em).
Proof.
  revert em. induction l as [|id l IH]; intros em Hcover; simpl.
  - split; [|done]. destruct (functions_of eventName em) as [|pair rest];
      [done|]. specialize (Hcover pair (list_elem_of_here _ _)).
    by apply elem_of_nil in Hcover.
  - destruct (IH (off eventName id em)) as [Hempty Hdom].
    + intros pair Hin. rewrite functions_of_off in Hin.
      apply remove_if_elem_of in Hin as [Hin Hne].
      specialize (Hcover pair Hin).
      apply elem_of_cons in Hcover as [Heq|Hl]; [|done].
      apply Nat.eqb_neq in Hne. done.
    + split; [exact Hempty|]. by rewrite Hdom, off_dom.
Qed.

Lemma emitEvent_empty_vector eventName args em w :
  functions_of eventName em = [] →
  emitEvent call eventName args em w = mkEmission em [] (Returned w).
Proof.
  unfold functions_of, emitEvent.
  destruct (functionsMap em !! eventName) as [v|]; simpl; [|done].
  by intros ->.
Qed.

(** Unregistering every identifier stored under a name, one [off] per
    identifier, leaves the name with an empty vector but still in the map;
    an emission for it then calls nothing and returns with the world
    untouched, as for a name that was never registered. *)
Theorem emitEvent_after_unregistering_everything eventName args em w :
  functions_of eventName
    (unregister_all eventName (ids (functions_of eventName em)) em) = [] ∧
  dom (functionsMap
         (unregister_all eventName (ids (functions_of eventName em)) em))
  = dom (functionsMap em) ∧
  emitEvent call eventName args
    (unregister_all eventName (ids (functions_of eventName em)) em) w
  = mkEmission
      (unregister_all eventName (ids (functions_of eventName em)) em)
      [] (Returned w).
Proof.
  destruct (unregister_all_covering eventName
              (ids (functions_of eventName em)) em) as [Hempty Hdom].
  { intros pair Hin. unfold ids. apply list_elem_of_fmap. by exists pair. }
  split; [exact Hempty|]. split; [exact Hdom|].
  by apply emitEvent_empty_vector.
Qed.

End Emptying.

Section Programs.
Context {Callback : Type}.
Implicit Types (em : EventManager Callback) (f : Callback).
Implicit Types (functions : list (nat * Callback)) (eventName : string).
Implicit Types (r : request Callback) (rs : list (request Callback)).

Lemma serve_all_snoc rs r em :
  serve_all (rs ++ [r]) em = serve (serve_all rs em) r.
Proof. unfold serve_all. by rewrite foldl_app. Qed.

Lemma registrations_snoc eventName rs r :
  registrations eventName (rs ++ [r])
  = registrations eventName rs + registrations eventName [r].
Proof.
  induction rs as [|[n g|n k] rs IH]; simpl in *; [lia| |done].
  rewrite IH. lia.
Qed.

Lemma serve_other eventName r em :
  request_name r ≠ eventName →
  functionsMap (serve em r) !! eventName = functionsMap em !! eventName.
Proof.
  destruct r as [n g|n k]; simpl; intros Hne.
  - by apply on_other.
  - by apply off_other.
Qed.

(** A pair that survives [remove_if] sat at the same or a later position
    before. *)
Lemma remove_if_lookup_ge {A : Type} (pred : A → bool) (v : list A) i x :
  remove_if pred v !! i = Some x → ∃ j, i ≤ j ∧ v !! j = Some x.
Proof.
  revert i. induction v as [|y v IH]; intros i; simpl; [done|].
  destruct (pred y).
  - intros H. destruct (IH i H) as (j & Hle & Hj).
    exists (S j). split; [lia | done].
  - destruct i as [|i]; simpl.
    + intros H. exists 0. by split.
    + intros H. destruct (IH i H) as (j & Hle & Hj).
      exists (S j). split; [lia | done].
Qed.

Lemma remove_if_length {A : Type} (pred : A → bool) (v : list A) :
  length (remove_if pred v) ≤ length v.
Proof.
  induction v as [|y v IH]; simpl; [done|]. destruct (pred y); simpl; lia.
Qed.

(** After any program of [on] and [off] calls on a fresh registry, a name
    stores at most as many pairs as [on] was called for it, and the pair at
    position [i] carries an identifier that is at least [i] and smaller
    than that number of calls: removals move pairs towards the front but
    never renumber them. *)
Theorem stored_identifier_bounds eventName rs :
  length (functions_of eventName (serve_all rs EventManager_default))
  ≤ registrations eventName rs ∧
  ∀ i pair,
    functions_of eventName (serve_all rs EventManager_default) !! i
    = Some pair →
    i ≤ pair.1 ∧ pair.1 < registrations eventName rs.
Proof.
  induction rs as [|r rs [IHlen IH]] using rev_ind.
  - unfold functions_of. simpl. rewrite lookup_empty. simpl. split; [done|].
    intros i pair H. by rewrite lookup_nil in H.
  - rewrite serve_all_snoc, registrations_snoc.
    destruct (decide (request_name r = eventName)) as [Heq|Hne].
    + destruct r as [n g|n k]; simpl in Heq; subst n; simpl.
      * rewrite bool_decide_eq_true_2 by done.
        rewrite functions_of_on, length_app. simpl. split; [lia|].
        intros i pair H. apply lookup_app_Some in H as [H|[Hge H]].
        -- specialize (IH i pair H). lia.
        -- apply list_lookup_singleton_Some in H as [Hi <-]. simpl. lia.
      * rewrite functions_of_off. split.
        -- etrans; [apply remove_if_length|]. lia.
        -- intros i pair H.
           apply remove_if_lookup_ge in H as (j & Hle & Hj).
           specialize (IH j pair Hj). lia.
    + assert (Hsame : functions_of eventName (serve (serve_all rs EventManager_default) r)
                      = functions_of eventName (serve_all rs EventManager_default)).
      { unfold functions_of. by rewrite serve_other. }
      rewrite Hsame.
      assert (Hreg : registrations eventName [r] = 0).
      { destruct r as [n g|n k]; simpl in *; [|done].
        by rewrite bool_decide_eq_false_2. }
      rewrite Hreg, Nat.add_0_r. by split.
Qed.

(** Requests about two different names can be served in either order: the
    registry they leave is the same, and the identifier an [on] returns
    does not depend on requests served for other names. *)
Theorem requests_on_distinct_names_commute r1 r2 em :
  request_name r1 ≠ request_name r2 →
  serve (serve em r1) r2 = serve (serve em r2) r1 ∧
  (∀ f, (on (request_name r1) f (serve em r2)).1
        = (on (request_name r1) f em).1).
Proof.
  intros Hne. split.
  - destruct em as [m].
    destruct r1 as [n1 g1|n1 k1], r2 as [n2 g2|n2 k2]; simpl in *;
      unfold on, off; simpl;
      destruct (m !! n1) as [v1|] eqn:H1, (m !! n2) as [v2|] eqn:H2; simpl;
      rewrite ?lookup_insert_ne by done; rewrite ?H1, ?H2; simpl;
      try done; by rewrite insert_insert_ne.
  - intros f. rewrite !on_fst. unfold functions_of.
    rewrite serve_other; [done | by apply not_eq_sym].
Qed.

End Programs.

Section MinimalHeader.
Context {Callback Args W Exn : Type}.
Variable call : Callback → Args → W → outcome W Exn.
Implicit Types (fs : list Callback) (args : Args).




End MinimalHeader.

Section Identifiers.
Context {Callback : Type}.
Implicit Types (em : EventManager Callback) (f : Callback).
Implicit Types (functions : list (nat * Callback)) (eventName : string).
Implicit Types (id : nat).

Lemma ids_remove_if_other id k functions :
  k ∈ ids functions → k ≠ id →
  k ∈ ids (remove_if (λ pair, Nat.eqb pair.1 id) functions).
Proof.
  intros Hin Hne. induction functions as [|[j g] rest IH]; simpl in *.
  - by apply elem_of_nil in Hin.
  - apply elem_of_cons in Hin as [->|Hin].
    + destruct (Nat.eqb_spec j id) as [->|_]; [done|]. by left.
    + destruct (Nat.eqb j id); simpl; [by apply IH|]. right. by apply IH.
Qed.

(** [on] keeps the identifiers of a name pairwise distinct exactly when
    they were distinct before and none of them equals the number of pairs
    stored, which is the identifier [on] hands out. *)
Theorem on_keeps_identifiers_distinct_iff eventName f em :
  NoDup (ids (functions_of eventName (on eventName f em).2)) ↔
  NoDup (ids (functions_of eventName em)) ∧
  (on eventName f em).1 ∉ ids (functions_of eventName em).
Proof.
  rewrite on_fst, functions_of_on. unfold ids. rewrite fmap_app. simpl.
  rewrite NoDup_app. split.
  - intros (Hnd & Hdisj & _). split; [done|].
    intros Hin. apply (Hdisj _ Hin). by left.
  - intros [Hnd Hfresh]. split; [done|]. split.
    + intros k Hin Hk. apply list_elem_of_singleton in Hk as ->. by apply Hfresh.
    + apply NoDup_singleton.
Qed.

(** Unregistering any function but the last one and then registering
    makes a collision: if a name's identifiers are 0..n-1 and [id] is not
    the last of them, then after [off] for [id] the next [on] returns n-1,
    which the last stored pair still carries. *)
Theorem on_after_out_of_order_off_collides eventName id f em :
  ids (functions_of eventName em)
  = seq 0 (length (functions_of eventName em)) →
  id + 1 < length (functions_of eventName em) →
  (on eventName f (off eventName id em)).1
  = length (functions_of eventName em) - 1 ∧
  (on eventName f (off eventName id em)).1
  ∈ ids (functions_of eventName (off eventName id em)) ∧
  ¬ NoDup (ids (functions_of eventName
                  (on eventName f (off eventName id em)).2)).
Proof.
  intros Hids Hlt.
  assert (Hnd : NoDup (ids (functions_of eventName em)))
    by (rewrite Hids; apply NoDup_seq).
  assert (Hin : id ∈ ids (functions_of eventName em))
    by (rewrite Hids, elem_of_seq; lia).
  assert (Hlen : (on eventName f (off eventName id em)).1
                 = length (functions_of eventName em) - 1).
  { rewrite on_fst, functions_of_off.
    pose proof (remove_if_unique_length id _ Hnd Hin). lia. }
  assert (Hlast : (on eventName f (off eventName id em)).1
                  ∈ ids (functions_of eventName (off eventName id em))).
  { rewrite Hlen, functions_of_off. apply ids_remove_if_other; [|lia].
    rewrite Hids, elem_of_seq. lia. }
  split; [exact Hlen|]. split; [exact Hlast|].
  intros Hdup. rewrite functions_of_on in Hdup. unfold ids in Hdup.
  rewrite fmap_app in Hdup. apply NoDup_app in Hdup as (_ & Hdisj & _).
  rewrite on_fst in Hlast. apply (Hdisj _ Hlast). by left.
Qed.

End Identifiers.

(** * The properties on the concrete client *)

Lemma emitEvent_registration_order_witness :
  emitEvent Demo.run "n" 5%Z Demo.two_listeners []
  = mkEmission Demo.two_listeners
      [Invoke 0 (Demo.Log 10) 5%Z; Invoke 1 (Demo.Log 20) 5%Z]
      (Returned [(10, 5%Z); (20, 5%Z)]).
Proof.
  refine (proj2 (emitEvent_registration_order Demo.run "n"
                   [Demo.Log 10; Demo.Log 20] 5%Z []
                   [(10, 5%Z); (20, 5%Z)] _)).
  repeat econstructor.
Defined.

Lemma off_then_emitEvent_witness :
  functionsMap (off "n" 0 Demo.two_listeners) !! "n"
  = Some [(1, Demo.Log 20)] ∧
  emitEvent Demo.run "n" 5%Z (off "n" 0 Demo.two_listeners) []
  = mkEmission (off "n" 0 Demo.two_listeners)
      [Invoke 1 (Demo.Log 20) 5%Z] (Returned [(20, 5%Z)]).
Proof.
  assert (Hin : 0 ∈ ids [(0, Demo.Log 10); (1, Demo.Log 20)])
    by apply list_elem_of_here.
  destruct (off_then_emitEvent Demo.run "n" 0 Demo.two_listeners
              [(0, Demo.Log 10); (1, Demo.Log 20)] eq_refl Hin)
    as (Hstored & _ & _ & _ & _ & Hemit).
  split; [exact Hstored|].
  apply (Hemit 5%Z [] [(20, 5%Z)]). repeat econstructor.
Defined.

Lemma off_absent_is_noop_witness :
  off "n" 7 Demo.two_listeners = Demo.two_listeners ∧
  off "never" 0 Demo.two_listeners = Demo.two_listeners.
Proof.
  split.
  - apply off_absent_is_noop. right.
    exists [(0, Demo.Log 10); (1, Demo.Log 20)]. split; [reflexivity|].
    apply (bool_decide_unpack _). vm_compute. exact I.
  - apply off_absent_is_noop. left. reflexivity.
Defined.

Lemma emitEvent_unknown_name_witness :
  emitEvent Demo.run "never" 5%Z Demo.two_listeners [(1, 1%Z)]
  = mkEmission Demo.two_listeners [] (Returned [(1, 1%Z)]).
Proof. apply emitEvent_unknown_name. reflexivity. Defined.

Lemma emitEvent_exception_propagates_witness :
  emitEvent Demo.run "n" 5%Z Demo.with_thrower []
  = mkEmission Demo.with_thrower
      [Invoke 0 (Demo.Log 10) 5%Z; Invoke 1 (Demo.Throw 3) 5%Z]
      (Raised 3 [(10, 5%Z)]).
Proof.
  apply (emitEvent_exception_propagates Demo.run "n" 5%Z Demo.with_thrower
           [(0, Demo.Log 10)] 1 (Demo.Throw 3) [(2, Demo.Log 20)]
           [] [(10, 5%Z)] 3 [(10, 5%Z)]).
  - reflexivity.
  - repeat econstructor.
  - reflexivity.
Defined.

Lemma distinct_names_are_independent_witness :
  functionsMap (on "a" (Demo.Log 30) Demo.two_names).2 !! "b"
  = Some [(0, Demo.Log 20)] ∧
  em_trace (emitEvent Demo.run "a" 5%Z Demo.two_names [])
  = [Invoke 0 (Demo.Log 10) 5%Z] ∧
  em_trace (emitEvent Demo.run "a" 5%Z
              (mkEventManager
                 (<["b" := [(0, Demo.Throw 3)]]> (functionsMap Demo.two_names)))
              [])
  = em_trace (emitEvent Demo.run "a" 5%Z Demo.two_names []).
Proof.
  assert (Hab : "a" ≠ "b") by discriminate.
  destruct (distinct_names_are_independent Demo.run "a" "b" Hab)
    as (Hon & _ & Hframe).
  split; [exact (Hon (Demo.Log 30) Demo.two_names)|].
  split; [reflexivity|].
  exact (proj1 (Hframe 5%Z Demo.two_names [] [(0, Demo.Throw 3)])).
Defined.

Lemma off_removes_every_match_witness :
  functionsMap Demo.after_reuse !! "n"
  = Some [(1, Demo.Log 20); (1, Demo.Log 30)] ∧
  functionsMap (off "n" 1 Demo.after_reuse) !! "n" = Some [] ∧
  dom (functionsMap (off "n" 1 Demo.after_reuse))
  = dom (functionsMap Demo.after_reuse).
Proof.
  destruct (off_removes_every_match "n" 1 Demo.after_reuse
              [(1, Demo.Log 20); (1, Demo.Log 30)] eq_refl)
    as (_ & _ & Hempty & Hdom).
  split; [reflexivity|]. split; [|exact Hdom].
  apply Hempty. apply Forall_forall. repeat constructor.
Defined.

Lemma off_undoes_on_witness :
  off "n" 2 (on "n" (Demo.Log 30) Demo.two_listeners).2 = Demo.two_listeners.
Proof.
  assert (Hfresh : (on "n" (Demo.Log 30) Demo.two_listeners).1
                   ∉ ids (functions_of "n" Demo.two_listeners)).
  { apply (bool_decide_unpack _). vm_compute. exact I. }
  destruct (off_undoes_on "n" (Demo.Log 30) Demo.two_listeners Hfresh)
    as (_ & _ & Hsame).
  apply Hsame. eexists. reflexivity.
Defined.

Lemma off_removes_exactly_one_witness :
  length (functions_of "n" (off "n" 0 Demo.two_listeners)) + 1 = 2 ∧
  NoDup (ids (functions_of "n" (off "n" 0 Demo.two_listeners))).
Proof.
  apply (off_removes_exactly_one "n" 0 Demo.two_listeners).
  - apply (bool_decide_unpack _). vm_compute. exact I.
  - apply list_elem_of_here.
Defined.

Lemma last_in_first_out_keeps_identifiers_witness :
  ids (functions_of "n" (on "n" (Demo.Log 30) Demo.two_listeners).2)
  = [0; 1; 2] ∧
  ids (functions_of "n" (off "n" 1 Demo.two_listeners)) = [0].
Proof.
  apply (last_in_first_out_keeps_identifiers "n" (Demo.Log 30)
           Demo.two_listeners).
  reflexivity.
Defined.

Lemma stored_identifier_bounds_witness :
  0 ≤ 1 ∧
  1 < registrations "n"
        [ReqOn "n" (Demo.Log 10); ReqOn "n" (Demo.Log 20); ReqOff "n" 0;
         ReqOn "n" (Demo.Log 30)].
Proof.
  apply (proj2 (stored_identifier_bounds "n"
                  [ReqOn "n" (Demo.Log 10); ReqOn "n" (Demo.Log 20);
                   ReqOff "n" 0; ReqOn "n" (Demo.Log 30)])
           0 (1, Demo.Log 20)).
  reflexivity.
Defined.

Lemma requests_on_distinct_names_commute_witness :
  serve (serve Demo.two_names (ReqOn "a" (Demo.Log 30))) (ReqOff "b" 0)
  = serve (serve Demo.two_names (ReqOff "b" 0)) (ReqOn "a" (Demo.Log 30)).
Proof.
  assert (Hne : request_name (ReqOn "a" (Demo.Log 30))
                ≠ request_name (ReqOff (Callback := Demo.callback) "b" 0))
    by discriminate.
  exact (proj1 (requests_on_distinct_names_commute
                  (ReqOn "a" (Demo.Log 30)) (ReqOff "b" 0)
                  Demo.two_names Hne)).
Defined.

Lemma on_after_out_of_order_off_collides_witness :
  (on "n" (Demo.Log 30) (off "n" 0 Demo.two_listeners)).1 = 1 ∧
  (on "n" (Demo.Log 30) (off "n" 0 Demo.two_listeners)).1
  ∈ ids (functions_of "n" (off "n" 0 Demo.two_listeners)) ∧
  ¬ NoDup (ids (functions_of "n"
                  (on "n" (Demo.Log 30) (off "n" 0 Demo.two_listeners)).2)).
Proof.
  apply (on_after_out_of_order_off_collides "n" 0 (Demo.Log 30)
           Demo.two_listeners).
  - reflexivity.
  - vm_compute. lia.
Defined.
